(** * Snowflake identifier generator (snowflake.go)

    A shallow embedding of the generator of 64-bit identifiers and the
    properties of its construction, its generation routine and its
    clock-wait helper.

    Go's [int64] is modelled as [Z] with the two's-complement wrap-around
    written out ([Int64.wrap]).  The wall clock ([time.Now().UnixMilli()])
    is modelled as the list of the readings that successive calls of
    [g.now()] return; a call that needs a reading when none is left has not
    returned yet, which the model renders as [None].  The mutex serialises
    the calls on one generator, so the model is the sequential behaviour of
    one call after the other. *)

From Stdlib Require Import ZArith List Lia Bool Sorted.
Import ListNotations.

Local Open Scope Z_scope.

(** ** 64-bit signed integers *)

Module Int64.

Definition min_int : Z := - 2 ^ 63.
Definition max_int : Z := 2 ^ 63 - 1.

Definition in_range (z : Z) : Prop := min_int <= z <= max_int.

(** Two's-complement reduction of an integer to 64 bits. *)
Definition wrap (z : Z) : Z := (z + 2 ^ 63) mod 2 ^ 64 - 2 ^ 63.

Definition add (a b : Z) : Z := wrap (a + b).
Definition sub (a b : Z) : Z := wrap (a - b).
Definition shl (a n : Z) : Z := wrap (Z.shiftl a n).
Definition or (a b : Z) : Z := Z.lor a b.

End Int64.

(** ** Constants *)

Definition sequenceIDBits : Z := 12.
Definition machineIDBits : Z := 5.
Definition idcIDBits : Z := 5.
Definition machineIDShift : Z := sequenceIDBits.
Definition idcIDShift : Z := machineIDBits + machineIDShift.
Definition unixMilliShift : Z := idcIDBits + idcIDShift.
Definition maxSequenceID : Z := Z.lnot (Z.shiftl (-1) sequenceIDBits).
Definition maxMachineID : Z := Z.lnot (Z.shiftl (-1) machineIDBits).
Definition maxIDCID : Z := Z.lnot (Z.shiftl (-1) idcIDBits).
Definition epoch : Z := 1669046400000.

(** ** Errors and generator state *)

Inductive error : Type :=
| ErrInvaildIDCID
| ErrInvaildMachineID
| ErrClockBack.

Record IDGenerator : Type := mkIDGenerator {
  lastMilli : Z;
  sequenceID : Z;
  machineID : Z;
  IDCID : Z
}.

Definition set_lastMilli (g : IDGenerator) (v : Z) : IDGenerator :=
  mkIDGenerator v (sequenceID g) (machineID g) (IDCID g).

Definition set_sequenceID (g : IDGenerator) (v : Z) : IDGenerator :=
  mkIDGenerator (lastMilli g) v (machineID g) (IDCID g).

(** ** Construction *)

Definition NewIDGenerator (idcID machineID : Z)
  : option IDGenerator * option error :=
  if (idcID >? maxIDCID) || (idcID <? 0) then (None, Some ErrInvaildIDCID)
  else if (machineID >? maxMachineID) || (machineID <? 0)
  then (None, Some ErrInvaildMachineID)
  else (Some (mkIDGenerator (-1) 0 machineID idcID), None).

(** ** The clock *)

Definition Clock : Type := list Z.

(** [g.now()]: the next reading, if one is available. *)
Definition now (clock : Clock) : option (Z * Clock) :=
  match clock with
  | [] => None
  | t :: clock' => Some (t, clock')
  end.

(** [g.tilNextMilli(now)]: re-read the clock while [now <= g.lastMilli]. *)
Fixpoint tilNextMilli (g : IDGenerator) (now : Z) (clock : Clock)
  {struct clock} : option (Z * Clock) :=
  if now <=? lastMilli g then
    match clock with
    | [] => None
    | t :: clock' => tilNextMilli g t clock'
    end
  else Some (now, clock).

(** ** Generation *)

(** What a call of [Generate] that returns leaves behind: the pair it
    returns, the generator after the call and the readings not consumed. *)
Record returned : Type := mkReturned {
  ret_id : Z;
  ret_err : option error;
  ret_gen : IDGenerator;
  ret_clock : Clock
}.

(** The identifier assembled on the last line of [Generate]. *)
Definition assemble (g : IDGenerator) (now : Z) : Z :=
  Int64.or
    (Int64.or
       (Int64.or (Int64.shl (Int64.sub now epoch) unixMilliShift)
                 (Int64.shl (IDCID g) idcIDShift))
       (Int64.shl (machineID g) machineIDShift))
    (sequenceID g).

(** The branches on [now] against [g.lastMilli] that update the sequence
    number, possibly waiting for the next millisecond. *)
Definition sequence_step (g : IDGenerator) (now : Z) (clock : Clock)
  : option (IDGenerator * Z * Clock) :=
  if now =? lastMilli g then
    let g := set_sequenceID g (Int64.add (sequenceID g) 1) in
    if sequenceID g >? maxSequenceID then
      match tilNextMilli g now clock with
      | None => None
      | Some (now, clock) => Some (set_sequenceID g 0, now, clock)
      end
    else Some (g, now, clock)
  else if now >? lastMilli g then Some (set_sequenceID g 0, now, clock)
  else Some (g, now, clock).

Definition Generate (g : IDGenerator) (clock : Clock) : option returned :=
  match now clock with
  | None => None
  | Some (now, clock) =>
      if now <? lastMilli g then Some (mkReturned (-1) (Some ErrClockBack) g clock)
      else
        match sequence_step g now clock with
        | None => None
        | Some (g, now, clock) =>
            let g := set_lastMilli g now in
            Some (mkReturned (assemble g now) None g clock)
        end
  end.

(** Successive calls on one generator, each starting from the state and
    the clock the previous one left; the run ends early at a call that has
    not returned. *)
Fixpoint GenerateN (n : nat) (g : IDGenerator) (clock : Clock)
  : list (Z * option error) :=
  match n with
  | O => []
  | S n' =>
      match Generate g clock with
      | None => []
      | Some r => (ret_id r, ret_err r) :: GenerateN n' (ret_gen r) (ret_clock r)
      end
  end.

(** The identifiers of the calls that returned no error. *)
Fixpoint successful_ids (rs : list (Z * option error)) : list Z :=
  match rs with
  | [] => []
  | (id, None) :: rs' => id :: successful_ids rs'
  | (_, Some _) :: rs' => successful_ids rs'
  end.

(** ** Reading the fields of an identifier

    The generator has no decoder; these follow the layout that the shifts of
    [Generate] fix: the elapsed milliseconds above bit 22, the IDC number in
    bits 21..17, the machine number in bits 16..12 and the sequence number
    in bits 11..0. *)

Definition decode_elapsed (id : Z) : Z := Z.shiftr id unixMilliShift.
Definition decode_milli (id : Z) : Z := decode_elapsed id + epoch.
Definition decode_idc (id : Z) : Z := Z.land (Z.shiftr id idcIDShift) maxIDCID.
Definition decode_machine (id : Z) : Z :=
  Z.land (Z.shiftr id machineIDShift) maxMachineID.
Definition decode_sequence (id : Z) : Z := Z.land id maxSequenceID.

(** ** Validity of a generator state *)

Definition valid_identity (g : IDGenerator) : Prop :=
  (0 <= IDCID g <= maxIDCID) /\ (0 <= machineID g <= maxMachineID).

Definition valid_sequence (g : IDGenerator) : Prop :=
  0 <= sequenceID g <= maxSequenceID.

Definition valid (g : IDGenerator) : Prop :=
  valid_identity g /\ valid_sequence g.

(** The readings whose distance to [epoch] fits the 41 bits (and the sign)
    left above the 22 low bits of an [int64]. *)
Definition in_window (t : Z) : Prop := - 2 ^ 41 <= t - epoch < 2 ^ 41.

(** The readings that fit the 41-bit timestamp field itself. *)
Definition in_field (t : Z) : Prop := 0 <= t - epoch < 2 ^ 41.

(** The 42 bits that [Generate] leaves above the identity fields, read as a
    signed number: what remains of [now - epoch] after the shift. *)
Definition stamp (t : Z) : Z := (t - epoch + 2 ^ 41) mod 2 ^ 42 - 2 ^ 41.

(** The position of a generator in the order of the identifiers, computed
    without wrap-around. *)
Definition rank (g : IDGenerator) : Z :=
  (lastMilli g - epoch) * 2 ^ 22
  + IDCID g * 2 ^ 17 + machineID g * 2 ^ 12 + sequenceID g.

(** ** Civil dates

    Milliseconds since 1970-01-01T00:00:00Z of a date and time of the
    proleptic Gregorian calendar, to compare [epoch] with the date its
    comment gives. *)

Module Calendar.

Definition days_from_civil (y m d : Z) : Z :=
  let y' := if m <=? 2 then y - 1 else y in
  let era := y' / 400 in
  let yoe := y' - era * 400 in
  let mp := (m + 9) mod 12 in
  let doy := (153 * mp + 2) / 5 + d - 1 in
  let doe := yoe * 365 + yoe / 4 - yoe / 100 + doy in
  era * 146097 + doe - 719468.

(** [offset_minutes] is the offset of the local time from UTC. *)
Definition unix_milli (y m d hh mm ss offset_minutes : Z) : Z :=
  ((days_from_civil y m d * 24 + hh) * 60 + mm - offset_minutes) * 60000
  + ss * 1000.

End Calendar.

(** ** The calls of [Generate] as a relation

    One constructor for each path through [Generate] that returns. *)

(** Readings on which the loop of [tilNextMilli] goes on. *)
Definition stalled (g : IDGenerator) (u : Z) : Prop := u <= lastMilli g.

(** The generator after minting at millisecond [t] with sequence number
    [s], and what the minting call returns. *)
Definition minted (g : IDGenerator) (t s : Z) : IDGenerator :=
  mkIDGenerator t s (machineID g) (IDCID g).

Definition mint (g : IDGenerator) (t s : Z) (rest : Clock) : returned :=
  mkReturned (assemble (minted g t s) t) None (minted g t s) rest.

Inductive generates (g : IDGenerator) : Clock -> returned -> Prop :=
| gen_clock_back t rest :
    t < lastMilli g ->
    generates g (t :: rest) (mkReturned (-1) (Some ErrClockBack) g rest)
| gen_same_milli t rest :
    t = lastMilli g ->
    Int64.add (sequenceID g) 1 <= maxSequenceID ->
    generates g (t :: rest) (mint g t (Int64.add (sequenceID g) 1) rest)
| gen_next_milli t waiting t' rest :
    t = lastMilli g ->
    maxSequenceID < Int64.add (sequenceID g) 1 ->
    Forall (stalled g) waiting ->
    lastMilli g < t' ->
    generates g (t :: waiting ++ t' :: rest) (mint g t' 0 rest)
| gen_new_milli t rest :
    lastMilli g < t ->
    generates g (t :: rest) (mint g t 0 rest).

(** The generators a program can hold: built by [NewIDGenerator], then
    changed by calls of [Generate] only. *)
Inductive reachable : IDGenerator -> Prop :=
| reach_new idc mach g :
    NewIDGenerator idc mach = (Some g, None) -> reachable g
| reach_generate g clock r :
    reachable g -> Generate g clock = Some r -> reachable (ret_gen r).

(** A clock that never goes back: each reading is at least the one
    before it. *)
Definition non_regressing (clock : Clock) : Prop := Sorted Z.le clock.

(** * Arithmetic of the 64-bit operations *)

Section Int64Facts.

Lemma wrap_in_range z : Int64.in_range z -> Int64.wrap z = z.
Proof.
  unfold Int64.in_range, Int64.min_int, Int64.max_int, Int64.wrap.
  intros Hz. rewrite Z.mod_small; lia.
Qed.

Lemma wrap_range z : Int64.in_range (Int64.wrap z).
Proof.
  unfold Int64.in_range, Int64.min_int, Int64.max_int, Int64.wrap.
  pose proof (Z.mod_pos_bound (z + 2 ^ 63) (2 ^ 64)). lia.
Qed.

(** Shifting a wrapped difference left by 22 keeps its low 42 bits. *)
Lemma shl_sub_stamp t :
  Int64.shl (Int64.sub t epoch) unixMilliShift = stamp t * 2 ^ 22.
Proof.
  unfold Int64.shl, Int64.sub, Int64.wrap, stamp.
  change unixMilliShift with 22.
  rewrite Z.shiftl_mul_pow2 by lia.
  set (x := t - epoch).
  pose proof (Z.div_mod (x + 2 ^ 63) (2 ^ 64) ltac:(lia)) as Hq.
  set (q := (x + 2 ^ 63) / 2 ^ 64) in *.
  replace (((x + 2 ^ 63) mod 2 ^ 64 - 2 ^ 63) * 2 ^ 22 + 2 ^ 63)
    with (2 ^ 22 * (x + 2 ^ 41) + (- q * 2 ^ 22) * 2 ^ 64) by lia.
  rewrite Z.mod_add by lia.
  change (2 ^ 64) with (2 ^ 22 * 2 ^ 42).
  rewrite Z.mul_mod_distr_l by lia. lia.
Qed.

Lemma stamp_in_window t : in_window t -> stamp t = t - epoch.
Proof.
  unfold in_window, stamp. intros Ht. rewrite Z.mod_small; lia.
Qed.

Lemma stamp_range t : - 2 ^ 41 <= stamp t < 2 ^ 41.
Proof.
  unfold stamp. pose proof (Z.mod_pos_bound (t - epoch + 2 ^ 41) (2 ^ 42)).
  lia.
Qed.

(** Below bit [k] a left shift by [k] is empty, so or-ing in a [k]-bit
    value adds it. *)
Lemma lor_shiftl_low hi lo k :
  0 <= k -> 0 <= lo < 2 ^ k -> Z.lor (Z.shiftl hi k) lo = hi * 2 ^ k + lo.
Proof.
  intros Hk Hlo.
  assert (Hdisj : Z.land (Z.shiftl hi k) lo = 0).
  { apply Z.bits_inj'. intros n Hn.
    rewrite Z.land_spec, Z.bits_0.
    destruct (Z.lt_ge_cases n k) as [Hlt | Hge].
    - rewrite Z.shiftl_spec_low by assumption. reflexivity.
    - rewrite <- (Z.mod_small lo (2 ^ k)) by assumption.
      rewrite Z.mod_pow2_bits_high by lia. apply andb_false_r. }
  rewrite <- Z.lxor_lor by assumption.
  rewrite <- Z.add_nocarry_lxor by assumption.
  rewrite Z.shiftl_mul_pow2 by assumption. reflexivity.
Qed.

End Int64Facts.

(** * The identifier as a sum of its fields *)

Section Fields.

Lemma max_values :
  maxSequenceID = 4095 /\ maxMachineID = 31 /\ maxIDCID = 31.
Proof. repeat split; reflexivity. Qed.

Lemma shift_values :
  machineIDShift = 12 /\ idcIDShift = 17 /\ unixMilliShift = 22.
Proof. repeat split; reflexivity. Qed.

Lemma lor_mul_pow2_low hi lo k :
  0 <= k -> 0 <= lo < 2 ^ k -> Z.lor (hi * 2 ^ k) lo = hi * 2 ^ k + lo.
Proof.
  intros Hk Hlo. rewrite <- Z.shiftl_mul_pow2 by assumption.
  rewrite lor_shiftl_low by assumption.
  rewrite Z.shiftl_mul_pow2 by assumption. reflexivity.
Qed.

Lemma shl_small a k :
  0 <= k -> 0 <= a -> a * 2 ^ k < 2 ^ 63 -> Int64.shl a k = a * 2 ^ k.
Proof.
  intros Hk Ha Hlt. unfold Int64.shl.
  rewrite Z.shiftl_mul_pow2 by assumption.
  apply wrap_in_range.
  unfold Int64.in_range, Int64.min_int, Int64.max_int.
  assert (0 <= a * 2 ^ k) by (apply Z.mul_nonneg_nonneg; lia). lia.
Qed.

(** With identities and sequence number inside their fields, the
    bitwise-or of the four shifted parts is their sum. *)
Lemma assemble_eq g t :
  valid g ->
  assemble g t
  = stamp t * 2 ^ 22 + IDCID g * 2 ^ 17 + machineID g * 2 ^ 12 + sequenceID g.
Proof.
  intros [[Hidc Hmach] Hseq]. unfold valid_sequence in Hseq.
  destruct max_values as (Es & Em & Ei). rewrite Es in Hseq.
  rewrite Em in Hmach. rewrite Ei in Hidc.
  unfold assemble, Int64.or. rewrite shl_sub_stamp.
  change idcIDShift with 17. change machineIDShift with 12.
  rewrite (shl_small (IDCID g) 17) by lia.
  rewrite (shl_small (machineID g) 12) by lia.
  rewrite <- !Z.lor_assoc.
  rewrite (lor_mul_pow2_low (machineID g) (sequenceID g) 12) by lia.
  rewrite (lor_mul_pow2_low (IDCID g) _ 17) by lia.
  rewrite (lor_mul_pow2_low (stamp t) _ 22) by lia.
  lia.
Qed.

(** Inside the window the shift loses nothing: the identifier is the
    rank of the generator that minted it. *)
Lemma assemble_rank g :
  valid g -> in_window (lastMilli g) -> assemble g (lastMilli g) = rank g.
Proof.
  intros Hv Hw. rewrite assemble_eq by assumption.
  rewrite stamp_in_window by assumption. reflexivity.
Qed.

Lemma div_high hi lo b : 0 <= lo < b -> (hi * b + lo) / b = hi.
Proof.
  intros Hlo. symmetry. apply (Z.div_unique _ _ _ lo); lia.
Qed.

Lemma mod_low hi lo b : 0 <= lo < b -> (hi * b + lo) mod b = lo.
Proof.
  intros Hlo. symmetry. apply (Z.mod_unique _ _ hi); lia.
Qed.

(** Reading back the fields of a sum of fields. *)
Lemma decode_sum h i m s :
  0 <= i <= 31 -> 0 <= m <= 31 -> 0 <= s <= 4095 ->
  let id := h * 2 ^ 22 + i * 2 ^ 17 + m * 2 ^ 12 + s in
  decode_elapsed id = h /\ decode_idc id = i
  /\ decode_machine id = m /\ decode_sequence id = s.
Proof.
  intros Hi Hm Hs id.
  unfold decode_elapsed, decode_idc, decode_machine, decode_sequence.
  change unixMilliShift with 22. change idcIDShift with 17.
  change machineIDShift with 12.
  change maxIDCID with (Z.ones 5). change maxMachineID with (Z.ones 5).
  change maxSequenceID with (Z.ones 12).
  rewrite !Z.land_ones by lia. rewrite !Z.shiftr_div_pow2 by lia.
  subst id. repeat split.
  - replace (h * 2 ^ 22 + i * 2 ^ 17 + m * 2 ^ 12 + s)
      with (h * 2 ^ 22 + (i * 2 ^ 17 + m * 2 ^ 12 + s)) by lia.
    apply div_high. lia.
  - replace (h * 2 ^ 22 + i * 2 ^ 17 + m * 2 ^ 12 + s)
      with ((h * 2 ^ 5 + i) * 2 ^ 17 + (m * 2 ^ 12 + s)) by lia.
    rewrite div_high by lia. apply mod_low. lia.
  - replace (h * 2 ^ 22 + i * 2 ^ 17 + m * 2 ^ 12 + s)
      with ((h * 2 ^ 10 + i * 2 ^ 5 + m) * 2 ^ 12 + s) by lia.
    rewrite div_high by lia.
    replace (h * 2 ^ 10 + i * 2 ^ 5 + m)
      with ((h * 2 ^ 5 + i) * 2 ^ 5 + m) by lia.
    apply mod_low. lia.
  - replace (h * 2 ^ 22 + i * 2 ^ 17 + m * 2 ^ 12 + s)
      with ((h * 2 ^ 10 + i * 2 ^ 5 + m) * 2 ^ 12 + s) by lia.
    apply mod_low. lia.
Qed.

End Fields.

(** * The wait for the next millisecond *)

Section Wait.

Variable g : IDGenerator.

Lemma tilNextMilli_past t clock :
  lastMilli g < t -> tilNextMilli g t clock = Some (t, clock).
Proof.
  intros Ht. destruct clock; simpl;
    destruct (Z.leb_spec t (lastMilli g)); try lia; reflexivity.
Qed.

Lemma tilNextMilli_read t u clock :
  t <= lastMilli g -> tilNextMilli g t (u :: clock) = tilNextMilli g u clock.
Proof.
  intros Ht. simpl. destruct (Z.leb_spec t (lastMilli g)); [reflexivity | lia].
Qed.

(** The loop skips the stalled readings and returns the first later one. *)
Lemma tilNextMilli_skips waiting t t' rest :
  t <= lastMilli g -> Forall (stalled g) waiting -> lastMilli g < t' ->
  tilNextMilli g t (waiting ++ t' :: rest) = Some (t', rest).
Proof.
  intros Ht Hw Ht'. revert t Ht.
  induction Hw as [| u waiting Hu Hw IH]; intros t Ht; simpl app.
  - rewrite tilNextMilli_read by assumption. now apply tilNextMilli_past.
  - rewrite tilNextMilli_read by assumption. now apply IH.
Qed.

(** A clock that never passes [lastMilli] keeps the loop going until the
    readings are used up. *)
Lemma tilNextMilli_stalled t clock :
  Forall (stalled g) (t :: clock) -> tilNextMilli g t clock = None.
Proof.
  revert t. induction clock as [| u clock IH]; intros t Hall.
  - inversion Hall as [| ? ? Ht _]; subst. unfold stalled in Ht. simpl.
    destruct (Z.leb_spec t (lastMilli g)); [reflexivity | lia].
  - inversion Hall as [| ? ? Ht Hrest]; subst. unfold stalled in Ht.
    rewrite tilNextMilli_read by assumption. now apply IH.
Qed.

(** What a wait that ends has read. *)
Lemma tilNextMilli_inv t clock t' rest :
  tilNextMilli g t clock = Some (t', rest) ->
  lastMilli g < t'
  /\ ((t' = t /\ rest = clock)
      \/ (t <= lastMilli g
          /\ exists waiting,
              clock = waiting ++ t' :: rest /\ Forall (stalled g) waiting)).
Proof.
  revert t. induction clock as [| u clock IH]; intros t Hrun.
  - simpl in Hrun. destruct (Z.leb_spec t (lastMilli g)); [discriminate |].
    injection Hrun as <- <-. auto.
  - destruct (Z.leb_spec t (lastMilli g)) as [Hle | Hgt].
    + rewrite tilNextMilli_read in Hrun by assumption.
      destruct (IH _ Hrun) as [Hlt [[-> ->] | [Hu [waiting [-> Hw]]]]].
      * split; [assumption | right]. split; [assumption |].
        exists []. split; [reflexivity | constructor].
      * split; [assumption | right]. split; [assumption |].
        exists (u :: waiting). split; [reflexivity |].
        constructor; assumption.
    + rewrite tilNextMilli_past in Hrun by assumption.
      injection Hrun as <- <-. auto.
Qed.

(** Any list with a reading past [lastMilli] splits at the first one. *)
Lemma first_advance clock :
  Exists (fun u => lastMilli g < u) clock ->
  exists waiting t' rest,
    clock = waiting ++ t' :: rest /\ Forall (stalled g) waiting
    /\ lastMilli g < t'.
Proof.
  induction clock as [| u clock IH]; intros Hex.
  - inversion Hex.
  - destruct (Z.leb_spec u (lastMilli g)) as [Hle | Hgt].
    + inversion Hex as [? ? Hu | ? ? Hlater]; subst; [lia |].
      destruct (IH Hlater) as (waiting & t' & rest & -> & Hw & Ht').
      exists (u :: waiting), t', rest.
      repeat split; [constructor |]; assumption.
    + exists [], u, clock. repeat split; [constructor | assumption].
Qed.

End Wait.

(** * [Generate] and its relation *)

Section Paths.

Variable g : IDGenerator.

Lemma Generate_clock_back t rest :
  t < lastMilli g ->
  Generate g (t :: rest) = Some (mkReturned (-1) (Some ErrClockBack) g rest).
Proof.
  intros Ht. unfold Generate. simpl.
  destruct (Z.ltb_spec t (lastMilli g)); [reflexivity | lia].
Qed.

Lemma Generate_same_milli rest :
  Int64.add (sequenceID g) 1 <= maxSequenceID ->
  Generate g (lastMilli g :: rest)
  = Some (mint g (lastMilli g) (Int64.add (sequenceID g) 1) rest).
Proof.
  intros Hs. unfold Generate, sequence_step. simpl.
  rewrite Z.ltb_irrefl, Z.eqb_refl.
  destruct (Z.gtb_spec (Int64.add (sequenceID g) 1) maxSequenceID);
    [lia | reflexivity].
Qed.

Lemma Generate_next_milli waiting t' rest :
  maxSequenceID < Int64.add (sequenceID g) 1 ->
  Forall (stalled g) waiting -> lastMilli g < t' ->
  Generate g (lastMilli g :: waiting ++ t' :: rest) = Some (mint g t' 0 rest).
Proof.
  intros Hs Hw Ht'. unfold Generate, sequence_step. simpl.
  rewrite Z.ltb_irrefl, Z.eqb_refl.
  destruct (Z.gtb_spec (Int64.add (sequenceID g) 1) maxSequenceID); [| lia].
  rewrite tilNextMilli_skips; [reflexivity | simpl; lia | exact Hw | exact Ht'].
Qed.

Lemma Generate_new_milli t rest :
  lastMilli g < t -> Generate g (t :: rest) = Some (mint g t 0 rest).
Proof.
  intros Ht. unfold Generate, sequence_step. simpl.
  destruct (Z.ltb_spec t (lastMilli g)); [lia |].
  destruct (Z.eqb_spec t (lastMilli g)); [lia |].
  destruct (Z.gtb_spec t (lastMilli g)); [reflexivity | lia].
Qed.

(** A frozen clock at an exhausted millisecond: the call has not returned
    when the readings are used up. *)
Lemma Generate_waiting rest :
  maxSequenceID < Int64.add (sequenceID g) 1 ->
  Forall (stalled g) rest -> Generate g (lastMilli g :: rest) = None.
Proof.
  intros Hs Hw. unfold Generate, sequence_step. simpl.
  rewrite Z.ltb_irrefl, Z.eqb_refl.
  destruct (Z.gtb_spec (Int64.add (sequenceID g) 1) maxSequenceID); [| lia].
  rewrite tilNextMilli_stalled; [reflexivity |].
  constructor; [unfold stalled; simpl; lia | exact Hw].
Qed.

Lemma generates_Generate clock r :
  generates g clock r -> Generate g clock = Some r.
Proof.
  intros [t rest Ht | t rest -> Hs | t waiting t' rest -> Hs Hw Ht'
          | t rest Ht].
  - now apply Generate_clock_back.
  - now apply Generate_same_milli.
  - now apply Generate_next_milli.
  - now apply Generate_new_milli.
Qed.

Lemma Generate_generates clock r :
  Generate g clock = Some r -> generates g clock r.
Proof.
  destruct clock as [| t rest]; [discriminate |].
  destruct (Z.lt_trichotomy t (lastMilli g)) as [Hlt | [-> | Hgt]].
  - rewrite Generate_clock_back by assumption.
    intros [= <-]. now constructor.
  - destruct (Z.le_gt_cases (Int64.add (sequenceID g) 1) maxSequenceID)
      as [Hs | Hs].
    + rewrite Generate_same_milli by assumption.
      intros [= <-]. now constructor.
    + unfold Generate, sequence_step. simpl.
      rewrite Z.ltb_irrefl, Z.eqb_refl.
      destruct (Z.gtb_spec (Int64.add (sequenceID g) 1) maxSequenceID);
        [| lia].
      destruct (tilNextMilli _ (lastMilli g) rest) as [[t' rest'] |] eqn:Hrun;
        [| discriminate].
      intros [= <-].
      apply tilNextMilli_inv in Hrun. simpl in Hrun.
      destruct Hrun as [Ht' [[-> _] | [_ [waiting [-> Hw]]]]]; [lia |].
      now apply gen_next_milli.
  - rewrite Generate_new_milli by assumption.
    intros [= <-]. now constructor.
Qed.

End Paths.

(** * What a returning call preserves *)

Section Invariants.

Lemma add_one_small s : 0 <= s <= maxSequenceID -> Int64.add s 1 = s + 1.
Proof.
  destruct max_values as (-> & _). intros Hs. unfold Int64.add.
  apply wrap_in_range.
  unfold Int64.in_range, Int64.min_int, Int64.max_int. lia.
Qed.

Lemma NewIDGenerator_valid idc mach g :
  NewIDGenerator idc mach = (Some g, None) ->
  valid g /\ lastMilli g = -1 /\ sequenceID g = 0.
Proof.
  unfold NewIDGenerator.
  destruct (Z.gtb_spec idc maxIDCID); [discriminate |].
  destruct (Z.ltb_spec idc 0); [discriminate |].
  destruct (Z.gtb_spec mach maxMachineID); [discriminate |].
  destruct (Z.ltb_spec mach 0); [discriminate |]. simpl.
  intros [= <-]. unfold valid, valid_identity, valid_sequence. simpl.
  destruct max_values as (-> & _ & _). lia.
Qed.

(** The readings a returning call has not consumed are a suffix of the
    ones it was given. *)
Lemma generates_suffix g clock r :
  generates g clock r -> exists used, clock = used ++ ret_clock r.
Proof.
  intros [t rest Ht | t rest -> Hs | t waiting t' rest -> Hs Hw Ht'
          | t rest Ht]; simpl.
  - now exists [t].
  - now exists [lastMilli g].
  - exists (lastMilli g :: waiting ++ [t']). simpl.
    now rewrite <- app_assoc.
  - now exists [t].
Qed.

(** A successful call mints at a millisecond it has read. *)
Lemma generates_reading g clock r :
  generates g clock r -> ret_err r = None -> In (lastMilli (ret_gen r)) clock.
Proof.
  intros [t rest Ht | t rest -> Hs | t waiting t' rest -> Hs Hw Ht'
          | t rest Ht]; simpl; intros Herr; try discriminate; auto.
  right. apply in_or_app. right. now left.
Qed.

Lemma generates_identity g clock r :
  generates g clock r ->
  machineID (ret_gen r) = machineID g /\ IDCID (ret_gen r) = IDCID g.
Proof.
  intros [t rest Ht | t rest -> Hs | t waiting t' rest -> Hs Hw Ht'
          | t rest Ht]; simpl; auto.
Qed.

Lemma generates_valid g clock r :
  valid g -> generates g clock r -> valid (ret_gen r).
Proof.
  intros Hv Hgen. pose proof Hv as [Hid Hseq].
  unfold valid, valid_identity, valid_sequence in *.
  destruct Hgen as [t rest Ht | t rest -> Hs | t waiting t' rest -> Hs Hw Ht'
                    | t rest Ht]; simpl; try assumption;
    (split; [assumption |]).
  - rewrite add_one_small in * by assumption. lia.
  - destruct max_values as (-> & _). lia.
  - destruct max_values as (-> & _). lia.
Qed.

(** A successful call returns the identifier assembled from the state it
    leaves. *)
Lemma generates_id g clock r :
  generates g clock r -> ret_err r = None ->
  ret_id r = assemble (ret_gen r) (lastMilli (ret_gen r)).
Proof.
  intros [t rest Ht | t rest -> Hs | t waiting t' rest -> Hs Hw Ht'
          | t rest Ht]; simpl; intros Herr; try discriminate; reflexivity.
Qed.

(** A failing call returns the generator as it found it. *)
Lemma generates_error g clock r e :
  generates g clock r -> ret_err r = Some e ->
  e = ErrClockBack /\ ret_id r = -1 /\ ret_gen r = g
  /\ exists t, clock = t :: ret_clock r /\ t < lastMilli g.
Proof.
  intros [t rest Ht | t rest -> Hs | t waiting t' rest -> Hs Hw Ht'
          | t rest Ht]; simpl; intros Herr; try discriminate.
  injection Herr as <-. repeat split. now exists t.
Qed.

(** A successful call moves the generator up in the order of the
    identifiers: the millisecond does not go back, and the sequence number
    grows by one when the millisecond stays. *)
Lemma generates_progress g clock r :
  valid g -> generates g clock r -> ret_err r = None ->
  (lastMilli (ret_gen r) = lastMilli g
   /\ sequenceID (ret_gen r) = sequenceID g + 1)
  \/ (lastMilli g < lastMilli (ret_gen r) /\ sequenceID (ret_gen r) = 0).
Proof.
  intros [_ Hseq] Hgen. unfold valid_sequence in Hseq.
  destruct Hgen as [t rest Ht | t rest -> Hs | t waiting t' rest -> Hs Hw Ht'
                    | t rest Ht]; simpl; intros Herr; try discriminate; auto.
  left. split; [reflexivity |]. now apply add_one_small.
Qed.

Lemma generates_rank g clock r :
  valid g -> generates g clock r -> ret_err r = None ->
  rank g < rank (ret_gen r).
Proof.
  intros Hv Hgen Herr.
  destruct (generates_identity _ _ _ Hgen) as [Em Ei].
  pose proof (generates_progress _ _ _ Hv Hgen Herr) as Hp.
  destruct Hv as [_ Hseq]. unfold valid_sequence in Hseq.
  destruct max_values as (Es & _). rewrite Es in Hseq.
  unfold rank. rewrite Em, Ei.
  destruct Hp as [[-> ->] | [Hlt ->]]; lia.
Qed.

End Invariants.

(** * The epoch *)

Section Epoch.

Example unix_milli_origin : Calendar.unix_milli 1970 1 1 0 0 0 0 = 0.
Proof. reflexivity. Qed.

Example unix_milli_leap_day :
  Calendar.unix_milli 2000 3 1 0 0 0 0 - Calendar.unix_milli 2000 2 28 0 0 0 0
  = 2 * 86400000.
Proof. reflexivity. Qed.

(** C3, as the constant is written: [epoch] is 1669046400000, the midnight
    that starts 2022-11-22 on a clock eight hours ahead of UTC, that is
    2022-11-21T16:00:00Z. *)
Theorem epoch_is_local_midnight :
  epoch = 1669046400000
  /\ epoch = Calendar.unix_milli 2022 11 22 0 0 0 (8 * 60)
  /\ epoch = Calendar.unix_milli 2022 11 21 16 0 0 0.
Proof. repeat split; reflexivity. Qed.

(** C3, as claimed, fails: 2022-11-22T00:00:00Z is 1669075200000, eight
    hours after [epoch]. *)
Lemma epoch_is_not_utc_midnight :
  Calendar.unix_milli 2022 11 22 0 0 0 0 = 1669075200000
  /\ epoch <> 1669075200000
  /\ 1669075200000 - epoch = 8 * 3600 * 1000.
Proof. repeat split; try reflexivity. discriminate. Qed.

End Epoch.

(** * Construction *)

Section Construction.

Lemma NewIDGenerator_idc_error idc mach :
  ~ (0 <= idc <= maxIDCID) ->
  NewIDGenerator idc mach = (None, Some ErrInvaildIDCID).
Proof.
  intros Hidc. unfold NewIDGenerator.
  destruct (Z.gtb_spec idc maxIDCID); [reflexivity |].
  destruct (Z.ltb_spec idc 0); [reflexivity | lia].
Qed.

Lemma NewIDGenerator_machine_error idc mach :
  0 <= idc <= maxIDCID -> ~ (0 <= mach <= maxMachineID) ->
  NewIDGenerator idc mach = (None, Some ErrInvaildMachineID).
Proof.
  intros Hidc Hmach. unfold NewIDGenerator.
  destruct (Z.gtb_spec idc maxIDCID); [lia |].
  destruct (Z.ltb_spec idc 0); [lia |]. simpl.
  destruct (Z.gtb_spec mach maxMachineID); [reflexivity |].
  destruct (Z.ltb_spec mach 0); [reflexivity | lia].
Qed.

Lemma NewIDGenerator_success idc mach :
  0 <= idc <= maxIDCID -> 0 <= mach <= maxMachineID ->
  NewIDGenerator idc mach = (Some (mkIDGenerator (-1) 0 mach idc), None).
Proof.
  intros Hidc Hmach. unfold NewIDGenerator.
  destruct (Z.gtb_spec idc maxIDCID); [lia |].
  destruct (Z.ltb_spec idc 0); [lia |]. simpl.
  destruct (Z.gtb_spec mach maxMachineID); [lia |].
  destruct (Z.ltb_spec mach 0); [lia | reflexivity].
Qed.

(** C6, as the checks are ordered: construction succeeds exactly when both
    identities are in [0, 31], and then returns a generator with
    [lastMilli = -1], [sequenceID = 0] and the given identities; an IDC
    number out of range gives [ErrInvaildIDCID]; a machine number out of
    range gives [ErrInvaildMachineID] when the IDC number is in range; no
    generator is returned with an error. *)
Theorem NewIDGenerator_spec (idc mach : Z) :
  (0 <= idc <= 31 /\ 0 <= mach <= 31
   <-> exists g, NewIDGenerator idc mach = (Some g, None))
  /\ (~ (0 <= idc <= 31) ->
      NewIDGenerator idc mach = (None, Some ErrInvaildIDCID))
  /\ (0 <= idc <= 31 -> ~ (0 <= mach <= 31) ->
      NewIDGenerator idc mach = (None, Some ErrInvaildMachineID))
  /\ (forall g, fst (NewIDGenerator idc mach) = Some g ->
      snd (NewIDGenerator idc mach) = None
      /\ lastMilli g = -1 /\ sequenceID g = 0
      /\ IDCID g = idc /\ machineID g = mach).
Proof.
  assert (Hbad_idc : ~ (0 <= idc <= 31) -> ~ (0 <= idc <= maxIDCID))
    by (change maxIDCID with 31; trivial).
  assert (Hbad_mach : ~ (0 <= mach <= 31) -> ~ (0 <= mach <= maxMachineID))
    by (change maxMachineID with 31; trivial).
  destruct (Z.le_gt_cases 0 idc) as [Hi0 | Hi0];
    [destruct (Z.le_gt_cases idc 31) as [Hi1 | Hi1] |].
  2, 3: rewrite (NewIDGenerator_idc_error idc mach) by (apply Hbad_idc; lia);
    (split; [split; [lia | intros [g Hg]; discriminate] |]);
    (split; [reflexivity |]); (split; [lia |]); intros g Hg; discriminate.
  destruct (Z.le_gt_cases 0 mach) as [Hm0 | Hm0];
    [destruct (Z.le_gt_cases mach 31) as [Hm1 | Hm1] |].
  2, 3: rewrite (NewIDGenerator_machine_error idc mach)
      by (try apply Hbad_mach; change maxIDCID with 31; lia);
    (split; [split; [lia | intros [g Hg]; discriminate] |]);
    (split; [lia |]); (split; [reflexivity |]); intros g Hg; discriminate.
  rewrite (NewIDGenerator_success idc mach)
    by (change maxIDCID with 31; change maxMachineID with 31; lia).
  split; [split; [intros _; eexists; reflexivity | lia] |].
  split; [lia |]. split; [lia |].
  simpl. intros g [= <-]. simpl. repeat split.
Qed.

(** C6, as claimed, fails where both identities are out of range: the
    machine number 32 is out of range, yet the error is the one of the IDC
    number. *)
Lemma NewIDGenerator_machine_out_of_range_idc_error :
  (32 >? maxMachineID) = true
  /\ NewIDGenerator 32 32 = (None, Some ErrInvaildIDCID)
  /\ NewIDGenerator 32 32 <> (None, Some ErrInvaildMachineID).
Proof. repeat split. discriminate. Qed.

(** C9: when both identities are outside [0, 31] the error is
    [ErrInvaildIDCID], the IDC number being checked first. *)
Theorem NewIDGenerator_both_invalid (idc mach : Z) :
  ~ (0 <= idc <= 31) -> ~ (0 <= mach <= 31) ->
  NewIDGenerator idc mach = (None, Some ErrInvaildIDCID).
Proof.
  intros Hidc _. apply NewIDGenerator_idc_error.
  change maxIDCID with 31. exact Hidc.
Qed.

Lemma NewIDGenerator_both_invalid_witness :
  NewIDGenerator 32 (-1) = (None, Some ErrInvaildIDCID).
Proof. apply NewIDGenerator_both_invalid; lia. Defined.

End Construction.

(** * Generation *)

Section Generation.

(** C8: a call of [Generate] that returns, with or without an error,
    leaves [machineID] and [IDCID] as they were; the generator it leaves
    differs from the one it found in [lastMilli] and [sequenceID] at most. *)
Theorem Generate_frame (g : IDGenerator) (clock : Clock) (r : returned) :
  Generate g clock = Some r ->
  machineID (ret_gen r) = machineID g
  /\ IDCID (ret_gen r) = IDCID g
  /\ ret_gen r
     = set_lastMilli (set_sequenceID g (sequenceID (ret_gen r)))
                     (lastMilli (ret_gen r)).
Proof.
  intros Hgen. apply Generate_generates in Hgen.
  destruct (generates_identity _ _ _ Hgen) as [Em Ei].
  repeat split; try assumption.
  destruct (ret_gen r) as [l s m i]. simpl in *. subst.
  reflexivity.
Qed.

Lemma Generate_frame_witness :
  let g := mkIDGenerator 7 4095 3 4 in
  let r := mkReturned (assemble (mkIDGenerator 9 0 3 4) 9) None
                      (mkIDGenerator 9 0 3 4) [10] in
  machineID (ret_gen r) = machineID g
  /\ IDCID (ret_gen r) = IDCID g
  /\ ret_gen r
     = set_lastMilli (set_sequenceID g (sequenceID (ret_gen r)))
                     (lastMilli (ret_gen r)).
Proof.
  exact (Generate_frame (mkIDGenerator 7 4095 3 4) [7; 6; 7; 9; 10] _
                        eq_refl).
Defined.

(** When the reading is not before [lastMilli], the call returns an
    identifier as soon as it need not wait, or the clock passes
    [lastMilli] at some later reading. *)
Lemma Generate_returns g t rest :
  lastMilli g <= t ->
  lastMilli g < t
  \/ Int64.add (sequenceID g) 1 <= maxSequenceID
  \/ Exists (fun u => lastMilli g < u) rest ->
  exists r, Generate g (t :: rest) = Some r /\ ret_err r = None.
Proof.
  intros Hle Hcan.
  destruct (Z.eq_dec t (lastMilli g)) as [-> | Hne].
  - destruct (Z.le_gt_cases (Int64.add (sequenceID g) 1) maxSequenceID)
      as [Hs | Hs].
    + eexists. split; [apply Generate_same_milli; exact Hs | reflexivity].
    + destruct Hcan as [Hlt | [Hs' | Hex]]; try lia.
      destruct (first_advance g rest Hex) as (w & t' & rest' & -> & Hw & Ht').
      eexists. split; [apply Generate_next_milli; assumption | reflexivity].
  - eexists. split; [apply Generate_new_milli; lia | reflexivity].
Qed.

Lemma Generate_error_iff g t rest r :
  Generate g (t :: rest) = Some r -> (ret_err r <> None <-> t < lastMilli g).
Proof.
  intros Hgen. apply Generate_generates in Hgen.
  inversion Hgen; subst; simpl; split; intros H; try lia; try congruence.
Qed.

(** C4: a call that returns, returns an error exactly when its first
    reading is before [lastMilli]; the error is [ErrClockBack] and the
    generator is left as it was.  With such a reading the call does return
    that error, and the next call, on a reading not before [lastMilli],
    returns no error; it returns as soon as it need not wait or the clock
    passes [lastMilli]. *)
Theorem Generate_clock_back_only_failure
  (g : IDGenerator) (t : Z) (rest : Clock) :
  (forall r, Generate g (t :: rest) = Some r ->
     (ret_err r <> None <-> t < lastMilli g)
     /\ (forall e, ret_err r = Some e ->
           e = ErrClockBack /\ ret_gen r = g
           /\ lastMilli (ret_gen r) = lastMilli g
           /\ sequenceID (ret_gen r) = sequenceID g))
  /\ (t < lastMilli g ->
      exists r,
        Generate g (t :: rest) = Some r
        /\ ret_err r = Some ErrClockBack /\ ret_gen r = g
        /\ forall t' rest', lastMilli g <= t' ->
             (forall r', Generate (ret_gen r) (t' :: rest') = Some r' ->
                ret_err r' = None)
             /\ (lastMilli g < t'
                 \/ Int64.add (sequenceID g) 1 <= maxSequenceID
                 \/ Exists (fun u => lastMilli g < u) rest' ->
                 exists r', Generate (ret_gen r) (t' :: rest') = Some r'
                            /\ ret_err r' = None)).
Proof.
  split.
  - intros r Hgen. split; [exact (Generate_error_iff _ _ _ _ Hgen) |].
    intros e He. apply Generate_generates in Hgen.
    destruct (generates_error _ _ _ _ Hgen He) as (-> & _ & -> & _).
    repeat split.
  - intros Hlt. eexists. split; [apply Generate_clock_back; exact Hlt |].
    simpl. repeat split.
    + intros r' Hgen'.
      pose proof (Generate_error_iff _ _ _ _ Hgen') as Hiff.
      destruct (ret_err r') as [e |]; [| reflexivity].
      assert (t' < lastMilli g) by (apply Hiff; discriminate). lia.
    + intros Hcan. now apply Generate_returns.
Qed.

(** The fields of the identifier of a successful call, read back. *)
Lemma generates_decode g clock r :
  valid_identity g -> generates g clock r -> ret_err r = None ->
  valid_sequence (ret_gen r) ->
  decode_elapsed (ret_id r) = stamp (lastMilli (ret_gen r))
  /\ decode_idc (ret_id r) = IDCID g
  /\ decode_machine (ret_id r) = machineID g
  /\ decode_sequence (ret_id r) = sequenceID (ret_gen r).
Proof.
  intros Hid Hgen Herr Hseq.
  destruct (generates_identity _ _ _ Hgen) as [Em Ei].
  assert (Hv : valid (ret_gen r)).
  { split; [| exact Hseq]. unfold valid_identity. now rewrite Em, Ei. }
  rewrite (generates_id _ _ _ Hgen Herr), (assemble_eq _ _ Hv).
  rewrite <- Em, <- Ei.
  destruct Hv as [[Hi Hm] Hs]. unfold valid_sequence in Hs.
  destruct max_values as (Es & Emax & Eimax).
  rewrite Es in Hs. rewrite Emax in Hm. rewrite Eimax in Hi.
  exact (decode_sum _ _ _ _ Hi Hm Hs).
Qed.

(** C2: the identifier of a successful call whose millisecond, identities
    and sequence number fit their fields gives them back: shifted right by
    22 and added to [epoch], the millisecond at which it was minted (one of
    the readings of the call); in bits 21..17 the IDC number, in bits
    16..12 the machine number and in bits 11..0 the sequence number.  The
    generator built with IDC number 1 and machine number 2, first called
    at [epoch + 5000], returns an identifier with fields 5000, 1, 2, 0. *)
Theorem Generate_fields_roundtrip :
  (forall g clock r,
     Generate g clock = Some r -> ret_err r = None ->
     valid_identity g -> valid_sequence (ret_gen r) ->
     in_field (lastMilli (ret_gen r)) ->
     In (lastMilli (ret_gen r)) clock
     /\ Z.shiftr (ret_id r) 22 + epoch = lastMilli (ret_gen r)
     /\ decode_milli (ret_id r) = lastMilli (ret_gen r)
     /\ decode_idc (ret_id r) = IDCID g
     /\ decode_machine (ret_id r) = machineID g
     /\ decode_sequence (ret_id r) = sequenceID (ret_gen r))
  /\ (forall rest, exists g r,
        NewIDGenerator 1 2 = (Some g, None)
        /\ Generate g (epoch + 5000 :: rest) = Some r
        /\ ret_err r = None
        /\ decode_elapsed (ret_id r) = 5000
        /\ decode_idc (ret_id r) = 1
        /\ decode_machine (ret_id r) = 2
        /\ decode_sequence (ret_id r) = 0).
Proof.
  split.
  - intros g clock r Hgen Herr Hid Hseq Hfield.
    apply Generate_generates in Hgen.
    destruct (generates_decode _ _ _ Hid Hgen Herr Hseq)
      as (Ht & Ei & Em & Es).
    rewrite stamp_in_window in Ht by (unfold in_field, in_window in *; lia).
    split; [exact (generates_reading _ _ _ Hgen Herr) |].
    unfold decode_milli. rewrite Ht.
    change (Z.shiftr (ret_id r) 22) with (decode_elapsed (ret_id r)).
    rewrite Ht. repeat split; try assumption; lia.
  - intros rest. do 2 eexists.
    split; [reflexivity |]. split; [reflexivity |].
    repeat split.
Qed.

Lemma Generate_fields_roundtrip_witness :
  let g := mkIDGenerator (epoch + 6999) 4095 31 30 in
  let r := mint g (epoch + 7000) 0 [] in
  In (lastMilli (ret_gen r)) [epoch + 6999; epoch + 6998; epoch + 7000]
  /\ Z.shiftr (ret_id r) 22 + epoch = lastMilli (ret_gen r)
  /\ decode_milli (ret_id r) = lastMilli (ret_gen r)
  /\ decode_idc (ret_id r) = IDCID g
  /\ decode_machine (ret_id r) = machineID g
  /\ decode_sequence (ret_id r) = sequenceID (ret_gen r).
Proof.
  apply (proj1 Generate_fields_roundtrip
           (mkIDGenerator (epoch + 6999) 4095 31 30)
           [epoch + 6999; epoch + 6998; epoch + 7000]).
  - reflexivity.
  - reflexivity.
  - unfold valid_identity. vm_compute. intuition discriminate.
  - unfold valid_sequence. vm_compute. intuition discriminate.
  - unfold in_field. vm_compute. intuition discriminate.
Defined.

(** C5: a call that reads [lastMilli] again when the incremented sequence
    number exceeds 4095 returns no error: if some later reading is past
    [lastMilli], it skips the readings up to the first such one, [t'],
    and returns an identifier minted at [t'] with sequence number 0,
    leaving [lastMilli = t'] and [sequenceID = 0]. *)
Theorem Generate_sequence_exhausted (g : IDGenerator) (rest : Clock) :
  maxSequenceID < Int64.add (sequenceID g) 1 ->
  Exists (fun u => lastMilli g < u) rest ->
  exists waiting t' rest' r,
    rest = waiting ++ t' :: rest'
    /\ Forall (fun u => u <= lastMilli g) waiting
    /\ lastMilli g < t'
    /\ Generate g (lastMilli g :: rest) = Some r
    /\ ret_err r = None
    /\ lastMilli (ret_gen r) = t'
    /\ sequenceID (ret_gen r) = 0
    /\ ret_clock r = rest'
    /\ ret_id r = assemble (ret_gen r) t'
    /\ (valid_identity g ->
        decode_sequence (ret_id r) = 0
        /\ (in_field t' -> decode_milli (ret_id r) = t')).
Proof.
  intros Hs Hex.
  destruct (first_advance g rest Hex) as (w & t' & rest' & -> & Hw & Ht').
  exists w, t', rest', (mint g t' 0 rest').
  assert (Hgen : generates g (lastMilli g :: w ++ t' :: rest')
                   (mint g t' 0 rest')) by now apply gen_next_milli.
  split; [reflexivity |]. split; [exact Hw |]. split; [exact Ht' |].
  split; [now apply generates_Generate |].
  do 5 (split; [reflexivity |]).
  intros Hid.
  destruct (generates_decode _ _ _ Hid Hgen eq_refl) as (Et & _ & _ & Es).
  { unfold valid_sequence. simpl. destruct max_values as (-> & _). lia. }
  split; [exact Es |]. intros Hfield.
  unfold decode_milli. rewrite Et. simpl.
  rewrite stamp_in_window by (unfold in_field, in_window in *; lia). lia.
Qed.

Lemma Generate_sequence_exhausted_witness :
  exists waiting t' rest' r,
    [10; 9; 12; 13] = waiting ++ t' :: rest'
    /\ Forall (fun u => u <= 10) waiting
    /\ 10 < t'
    /\ Generate (mkIDGenerator 10 4095 2 1) [10; 10; 9; 12; 13] = Some r
    /\ ret_err r = None
    /\ lastMilli (ret_gen r) = t'
    /\ sequenceID (ret_gen r) = 0
    /\ ret_clock r = rest'
    /\ ret_id r = assemble (ret_gen r) t'
    /\ (valid_identity (mkIDGenerator 10 4095 2 1) ->
        decode_sequence (ret_id r) = 0
        /\ (in_field t' -> decode_milli (ret_id r) = t')).
Proof.
  apply (Generate_sequence_exhausted (mkIDGenerator 10 4095 2 1)
           [10; 9; 12; 13]).
  - vm_compute. reflexivity.
  - simpl. right. right. left. lia.
Defined.

(** Every generator a program can hold is valid. *)
Lemma reachable_valid g : reachable g -> valid g.
Proof.
  induction 1 as [idc mach g Hnew | g clock r _ IH Hgen].
  - now apply NewIDGenerator_valid in Hnew.
  - apply Generate_generates in Hgen. exact (generates_valid _ _ _ IH Hgen).
Qed.

(** C7: on a generator built by [NewIDGenerator] and used through
    [Generate], after a successful call that leaves a sequence number below
    4095, a call whose reading is the same millisecond returns an identifier
    with the same timestamp field and the sequence field one higher. *)
Theorem Generate_same_milli_increments
  (g : IDGenerator) (clock : Clock) (r1 : returned) (rest : Clock) :
  reachable g ->
  Generate g clock = Some r1 -> ret_err r1 = None ->
  sequenceID (ret_gen r1) < maxSequenceID ->
  ret_clock r1 = lastMilli (ret_gen r1) :: rest ->
  exists r2,
    Generate (ret_gen r1) (ret_clock r1) = Some r2
    /\ ret_err r2 = None
    /\ lastMilli (ret_gen r2) = lastMilli (ret_gen r1)
    /\ sequenceID (ret_gen r2) = sequenceID (ret_gen r1) + 1
    /\ decode_sequence (ret_id r1) = sequenceID (ret_gen r1)
    /\ decode_sequence (ret_id r2) = decode_sequence (ret_id r1) + 1
    /\ decode_elapsed (ret_id r2) = decode_elapsed (ret_id r1).
Proof.
  intros Hreach Hgen1 Herr1 Hlt Hclock.
  pose proof (reachable_valid _ Hreach) as Hv.
  apply Generate_generates in Hgen1.
  pose proof (generates_valid _ _ _ Hv Hgen1) as Hv1.
  pose proof Hv1 as [Hid1 Hseq1]. unfold valid_sequence in Hseq1.
  assert (Hadd : Int64.add (sequenceID (ret_gen r1)) 1
                 = sequenceID (ret_gen r1) + 1)
    by now apply add_one_small.
  set (r2 := mint (ret_gen r1) (lastMilli (ret_gen r1))
                  (Int64.add (sequenceID (ret_gen r1)) 1) rest).
  assert (Hgen2 : generates (ret_gen r1) (ret_clock r1) r2).
  { rewrite Hclock. apply gen_same_milli; [reflexivity | lia]. }
  assert (Hseq2 : valid_sequence (ret_gen r2)).
  { unfold valid_sequence. simpl. lia. }
  destruct (generates_decode _ _ _ (proj1 Hv) Hgen1 Herr1 (proj2 Hv1))
    as (Et1 & _ & _ & Es1).
  destruct (generates_decode _ _ _ Hid1 Hgen2 eq_refl Hseq2)
    as (Et2 & _ & _ & Es2).
  exists r2. split; [now apply generates_Generate |].
  split; [reflexivity |]. split; [reflexivity |].
  split; [exact Hadd |]. split; [exact Es1 |].
  split.
  - rewrite Es2, Es1. exact Hadd.
  - rewrite Et2, Et1. reflexivity.
Qed.

Lemma Generate_same_milli_increments_witness :
  let r1 := mint (mkIDGenerator (-1) 0 2 1) (epoch + 5000) 0
                 [epoch + 5000; epoch + 5001] in
  exists r2,
    Generate (ret_gen r1) (ret_clock r1) = Some r2
    /\ ret_err r2 = None
    /\ lastMilli (ret_gen r2) = lastMilli (ret_gen r1)
    /\ sequenceID (ret_gen r2) = sequenceID (ret_gen r1) + 1
    /\ decode_sequence (ret_id r1) = sequenceID (ret_gen r1)
    /\ decode_sequence (ret_id r2) = decode_sequence (ret_id r1) + 1
    /\ decode_elapsed (ret_id r2) = decode_elapsed (ret_id r1).
Proof.
  apply (Generate_same_milli_increments (mkIDGenerator (-1) 0 2 1)
           [epoch + 5000; epoch + 5000; epoch + 5001] _ [epoch + 5001]).
  - exact (reach_new 1 2 _ eq_refl).
  - reflexivity.
  - reflexivity.
  - reflexivity.
  - reflexivity.
Defined.

(** ** The value -1 *)

Lemma stamp_minus_one t :
  stamp t = -1 <-> (t - epoch) mod 2 ^ 42 = 2 ^ 42 - 1.
Proof.
  unfold stamp. generalize (t - epoch). intros x.
  split; intros H; Z.div_mod_to_equations; lia.
Qed.

(** C10, as the code allows: with a reading before [lastMilli] the call
    returns -1 together with [ErrClockBack].  A successful call of a
    generator built by [NewIDGenerator] returns -1 only with IDC number 31, machine number 31,
    sequence number 4095 and the low 42 bits of [now - epoch] all set; when
    the millisecond fits the timestamp field the identifier is not
    negative, so -1 is then no identifier. *)
Theorem Generate_minus_one :
  (forall g t rest,
     t < lastMilli g ->
     exists r, Generate g (t :: rest) = Some r
               /\ ret_id r = -1 /\ ret_err r = Some ErrClockBack)
  /\ (forall g clock r,
        reachable g -> Generate g clock = Some r -> ret_err r = None ->
        (ret_id r = -1
         <-> IDCID g = 31 /\ machineID g = 31
             /\ sequenceID (ret_gen r) = 4095
             /\ (lastMilli (ret_gen r) - epoch) mod 2 ^ 42 = 2 ^ 42 - 1)
        /\ (in_field (lastMilli (ret_gen r)) -> 0 <= ret_id r)).
Proof.
  split.
  - intros g t rest Hlt. eexists.
    split; [apply Generate_clock_back; exact Hlt |]. split; reflexivity.
  - intros g clock r Hreach Hgen Herr. apply Generate_generates in Hgen.
    pose proof (reachable_valid _ Hreach) as Hv.
    pose proof (generates_valid _ _ _ Hv Hgen) as Hv'.
    destruct (generates_identity _ _ _ Hgen) as [Em Ei].
    rewrite (generates_id _ _ _ Hgen Herr), (assemble_eq _ _ Hv').
    rewrite <- stamp_minus_one.
    pose proof (stamp_range (lastMilli (ret_gen r))) as Hst.
    destruct Hv' as [[Hi Hm] Hs]. unfold valid_sequence in Hs.
    destruct max_values as (Es & Emax & Eimax).
    rewrite Es in Hs. rewrite Emax in Hm. rewrite Eimax in Hi.
    rewrite <- Em, <- Ei. split; [lia |].
    intros Hfield.
    rewrite stamp_in_window in * by (unfold in_field, in_window in *; lia).
    unfold in_field in Hfield. lia.
Qed.

(** C10, as claimed, fails: -1 is the identifier of a successful call.
    With both identities 31 and the clock standing one millisecond before
    [epoch], the 4096th call of a new generator returns it. *)
Lemma Generate_mints_minus_one :
  NewIDGenerator 31 31 = (Some (mkIDGenerator (-1) 0 31 31), None)
  /\ nth 4095
       (GenerateN 4096 (mkIDGenerator (-1) 0 31 31) (repeat (epoch - 1) 4096))
       (0, Some ErrClockBack)
     = (-1, None)
  /\ Generate (mkIDGenerator (epoch - 1) 4094 31 31) [epoch - 1]
     = Some (mkReturned (-1) None (mkIDGenerator (epoch - 1) 4095 31 31) []).
Proof.
  split; [reflexivity |]. split; vm_compute; reflexivity.
Qed.

(** ** Order of the identifiers *)

Lemma successful_ids_cons_ok id rs :
  successful_ids ((id, None) :: rs) = id :: successful_ids rs.
Proof. reflexivity. Qed.

Lemma successful_ids_cons_err id e rs :
  successful_ids ((id, Some e) :: rs) = successful_ids rs.
Proof. reflexivity. Qed.

(** In a run over readings of the window, the identifiers of the successful
    calls are above the rank of the starting generator, and increasing.
    Nothing is asked of the order of the readings: a call on a reading
    before [lastMilli] returns an error and no identifier. *)
Lemma GenerateN_increasing n :
  forall g clock,
    valid g -> Forall in_window clock ->
    Forall (fun id => rank g < id) (successful_ids (GenerateN n g clock))
    /\ StronglySorted Z.lt (successful_ids (GenerateN n g clock)).
Proof.
  induction n as [| n IH]; intros g clock Hv Hwin; simpl.
  - split; constructor.
  - destruct (Generate g clock) as [r |] eqn:Hgen; [| split; constructor].
    apply Generate_generates in Hgen.
    destruct (generates_suffix _ _ _ Hgen) as [used Hused].
    assert (Hwin' : Forall in_window (ret_clock r)).
    { rewrite Hused in Hwin. apply Forall_app in Hwin. tauto. }
    destruct (ret_err r) as [e |] eqn:Herr.
    + rewrite successful_ids_cons_err.
      destruct (generates_error _ _ _ _ Hgen Herr) as (_ & _ & Hsame & _).
      rewrite Hsame. now apply IH.
    + rewrite successful_ids_cons_ok.
      pose proof (generates_valid _ _ _ Hv Hgen) as Hv'.
      pose proof (generates_rank _ _ _ Hv Hgen Herr) as Hrank.
      assert (Hid : ret_id r = rank (ret_gen r)).
      { rewrite (generates_id _ _ _ Hgen Herr). apply assemble_rank; [easy |].
        rewrite Forall_forall in Hwin. apply Hwin.
        exact (generates_reading _ _ _ Hgen Herr). }
      destruct (IH _ _ Hv' Hwin') as [Habove Hsorted].
      rewrite Hid. split.
      * constructor; [exact Hrank |].
        eapply Forall_impl; [| exact Habove]. simpl. intros; lia.
      * constructor; assumption.
Qed.

(** C1, within the window: over a clock that never goes back and whose
    readings [t] satisfy [-2^41 <= t - epoch < 2^41], the identifiers that
    the successful calls of a run on one generator return are strictly
    increasing. *)
Theorem Generate_strictly_increasing
  (n : nat) (g : IDGenerator) (clock : Clock) :
  reachable g -> non_regressing clock -> Forall in_window clock ->
  StronglySorted Z.lt (successful_ids (GenerateN n g clock)).
Proof.
  intros Hreach _ Hwin. apply GenerateN_increasing; [| exact Hwin].
  now apply reachable_valid.
Qed.

Lemma Generate_strictly_increasing_witness :
  StronglySorted Z.lt
    (successful_ids
       (GenerateN 4 (mkIDGenerator (-1) 0 2 1)
          [epoch + 1; epoch + 1; epoch + 2; epoch + 2])).
Proof.
  apply Generate_strictly_increasing.
  - exact (reach_new 1 2 _ eq_refl).
  - unfold non_regressing, epoch. repeat constructor; lia.
  - unfold in_window, epoch. repeat constructor; lia.
Defined.

(** C1, as claimed, fails past the window: the clock goes from the last
    millisecond of the 41-bit field to the next, both calls succeed, and the
    shift carries into the sign bit, so the second identifier is below the
    first. *)
Lemma Generate_not_increasing_past_window :
  NewIDGenerator 0 0 = (Some (mkIDGenerator (-1) 0 0 0), None)
  /\ non_regressing [epoch + 2 ^ 41 - 1; epoch + 2 ^ 41]
  /\ Forall Int64.in_range [epoch + 2 ^ 41 - 1; epoch + 2 ^ 41]
  /\ GenerateN 2 (mkIDGenerator (-1) 0 0 0)
       [epoch + 2 ^ 41 - 1; epoch + 2 ^ 41]
     = [(9223372036850581504, None); (-9223372036854775808, None)]
  /\ -9223372036854775808 < 9223372036850581504
  /\ ~ StronglySorted Z.lt
        (successful_ids
           (GenerateN 2 (mkIDGenerator (-1) 0 0 0)
              [epoch + 2 ^ 41 - 1; epoch + 2 ^ 41])).
Proof.
  assert (Hrun : GenerateN 2 (mkIDGenerator (-1) 0 0 0)
                   [epoch + 2 ^ 41 - 1; epoch + 2 ^ 41]
                 = [(9223372036850581504, None);
                    (-9223372036854775808, None)])
    by (vm_compute; reflexivity).
  split; [reflexivity |]. split.
  { unfold non_regressing, epoch. repeat constructor; lia. }
  split.
  { unfold Int64.in_range, Int64.min_int, Int64.max_int, epoch.
    repeat constructor; lia. }
  split; [exact Hrun |]. split; [lia |].
  rewrite Hrun. simpl. intros Hsorted.
  inversion Hsorted as [| ? ? _ Hhd]; subst.
  inversion Hhd as [| ? ? Hlt _]; subst. lia.
Qed.

End Generation.

(** * Runs over a clock *)

Section Runs.

(** A call that has returned does not depend on the readings it left:
    with more readings after them it returns the same, and leaves those
    too. *)
Lemma generates_more_readings g clock r more :
  generates g clock r ->
  generates g (clock ++ more)
    (mkReturned (ret_id r) (ret_err r) (ret_gen r) (ret_clock r ++ more)).
Proof.
  intros [t rest Ht | t rest -> Hs | t waiting t' rest -> Hs Hw Ht'
          | t rest Ht]; simpl.
  - now apply gen_clock_back.
  - now apply gen_same_milli.
  - rewrite <- app_assoc. simpl.
    exact (gen_next_milli g _ waiting t' (rest ++ more) eq_refl Hs Hw Ht').
  - now apply gen_new_milli.
Qed.

Lemma StronglySorted_app_r (R : Z -> Z -> Prop) l1 l2 :
  StronglySorted R (l1 ++ l2) -> StronglySorted R l2.
Proof.
  induction l1 as [| a l1 IH]; simpl; intros Hs; [exact Hs |].
  inversion Hs; subst. now apply IH.
Qed.

(** Over a clock that never goes back and starts no earlier than
    [lastMilli], no call returns an error. *)
Lemma GenerateN_no_error n :
  forall g clock,
    non_regressing clock -> Forall (fun t => lastMilli g <= t) clock ->
    Forall (fun x => snd x = None) (GenerateN n g clock).
Proof.
  unfold non_regressing.
  induction n as [| n IH]; intros g clock Hsorted Hfrom; simpl;
    [constructor |].
  destruct (Generate g clock) as [r |] eqn:Hgen; [| constructor].
  apply Generate_generates in Hgen.
  apply Sorted_StronglySorted in Hsorted; [| exact Z.le_trans].
  destruct Hgen as [t rest Ht | t rest -> Hs | t waiting t' rest -> Hs Hw Ht'
                    | t rest Ht]; simpl.
  - inversion Hfrom; subst. lia.
  - inversion Hsorted as [| ? ? Hrest Hhd]; subst.
    constructor; [reflexivity |].
    apply IH; [now apply StronglySorted_Sorted | exact Hhd].
  - inversion Hsorted as [| ? ? Hrest _]; subst.
    apply StronglySorted_app_r in Hrest.
    inversion Hrest as [| ? ? Hrest' Hhd]; subst.
    constructor; [reflexivity |].
    apply IH; [now apply StronglySorted_Sorted | exact Hhd].
  - inversion Hsorted as [| ? ? Hrest Hhd]; subst.
    constructor; [reflexivity |].
    apply IH; [now apply StronglySorted_Sorted | exact Hhd].
Qed.

(** 4097 calls of a new generator within one millisecond: the first 4096
    take the sequence numbers 0 to 4095, the last one waits and mints at
    the next millisecond with sequence number 0. *)
Example GenerateN_exhausts_millisecond :
  let clock := repeat (epoch + 5000) 4097 ++ [epoch + 5000; epoch + 5001] in
  let run := GenerateN 4097 (mkIDGenerator (-1) 0 2 1) clock in
  length run = 4097%nat
  /\ map (fun x => decode_sequence (fst x)) (firstn 4096 run)
     = map Z.of_nat (seq 0 4096)
  /\ Forall (fun x => decode_milli (fst x) = epoch + 5000) (firstn 4096 run)
  /\ Forall (fun x => snd x = None) run
  /\ map (fun x => (decode_milli (fst x), decode_sequence (fst x)))
         (skipn 4096 run)
     = [(epoch + 5001, 0)].
Proof.
  cbv zeta.
  split; [vm_compute; reflexivity |].
  split; [vm_compute; reflexivity |].
  split; [| split; [| vm_compute; reflexivity]].
  - apply Forall_forall. intros x Hin.
    assert (Hall : forallb (fun x => decode_milli (fst x) =? epoch + 5000)
                     (firstn 4096
                        (GenerateN 4097 (mkIDGenerator (-1) 0 2 1)
                           (repeat (epoch + 5000) 4097
                            ++ [epoch + 5000; epoch + 5001])))
                   = true) by (vm_compute; reflexivity).
    rewrite forallb_forall in Hall. apply Z.eqb_eq. now apply Hall.
  - apply Forall_forall. intros x Hin.
    assert (Hall : forallb (fun x => match snd x with
                                     | None => true
                                     | Some _ => false
                                     end)
                     (GenerateN 4097 (mkIDGenerator (-1) 0 2 1)
                        (repeat (epoch + 5000) 4097
                         ++ [epoch + 5000; epoch + 5001]))
                   = true) by (vm_compute; reflexivity).
    rewrite forallb_forall in Hall. specialize (Hall x Hin).
    destruct (snd x); [discriminate | reflexivity].
Qed.

End Runs.

(** * Further properties of the wait *)

Section WaitProperties.

(** X1: [tilNextMilli] uses up the readings without returning exactly when
    none of them, the one passed in included, is past [lastMilli]; when it
    returns, it returns the first reading past [lastMilli] and leaves the
    readings after it. *)
Theorem tilNextMilli_first_past (g : IDGenerator) (t : Z) (clock : Clock) :
  (tilNextMilli g t clock = None
   <-> Forall (fun u => u <= lastMilli g) (t :: clock))
  /\ (forall t' rest,
        tilNextMilli g t clock = Some (t', rest) ->
        lastMilli g < t'
        /\ exists waiting,
            t :: clock = waiting ++ t' :: rest
            /\ Forall (fun u => u <= lastMilli g) waiting).
Proof.
  split; [split |].
  - revert t. induction clock as [| u clock IH]; intros t Hnone.
    + simpl in Hnone. destruct (Z.leb_spec t (lastMilli g)); [| discriminate].
      constructor; [assumption | constructor].
    + destruct (Z.leb_spec t (lastMilli g)) as [Hle | Hgt].
      * rewrite tilNextMilli_read in Hnone by assumption.
        constructor; [assumption | now apply IH].
      * rewrite tilNextMilli_past in Hnone by assumption. discriminate.
  - apply tilNextMilli_stalled.
  - intros t' rest Hrun.
    destruct (tilNextMilli_inv _ _ _ _ _ Hrun)
      as [Hlt [[-> ->] | [Hle [waiting [-> Hw]]]]].
    + split; [assumption |]. exists []. split; [reflexivity | constructor].
    + split; [assumption |]. exists (t :: waiting).
      split; [reflexivity |]. constructor; assumption.
Qed.

(** X2: at an exhausted millisecond the call returns exactly when some later
    reading is past [lastMilli].  Readings below [lastMilli] met during the
    wait are skipped like the equal ones: they give no [ErrClockBack]. *)
Theorem Generate_exhausted_returns_iff (g : IDGenerator) (rest : Clock) :
  maxSequenceID < Int64.add (sequenceID g) 1 ->
  (Generate g (lastMilli g :: rest) = None
   <-> Forall (fun u => u <= lastMilli g) rest)
  /\ (forall r, Generate g (lastMilli g :: rest) = Some r ->
        ret_err r = None /\ lastMilli g < lastMilli (ret_gen r)
        /\ sequenceID (ret_gen r) = 0).
Proof.
  intros Hs. split; [split |].
  - intros Hnone.
    destruct (Forall_Exists_dec (fun u => u <= lastMilli g)
                (fun u => Z_le_dec u (lastMilli g)) rest) as [Hall | Hex];
      [exact Hall |].
    assert (Hadv : Exists (fun u => lastMilli g < u) rest).
    { apply Exists_exists. apply Exists_exists in Hex.
      destruct Hex as [u [Hin Hu]]. exists u. split; [assumption | lia]. }
    destruct (Generate_returns g (lastMilli g) rest (Z.le_refl _)
                (or_intror (or_intror Hadv))) as [r [Hr _]].
    congruence.
  - intros Hall. now apply Generate_waiting.
  - intros r Hgen. apply Generate_generates in Hgen.
    inversion Hgen; subst; simpl; try lia. auto.
Qed.

Lemma Generate_exhausted_returns_iff_witness :
  (Generate (mkIDGenerator 10 4095 2 1) [10; 10; 3; 9] = None
   <-> Forall (fun u => u <= 10) [10; 3; 9])
  /\ (forall r, Generate (mkIDGenerator 10 4095 2 1) [10; 10; 3; 9] = Some r ->
        ret_err r = None /\ 10 < lastMilli (ret_gen r)
        /\ sequenceID (ret_gen r) = 0).
Proof.
  apply (Generate_exhausted_returns_iff (mkIDGenerator 10 4095 2 1)
           [10; 3; 9]).
  vm_compute. reflexivity.
Defined.

End WaitProperties.

(** * Further properties of the generator state *)

Section StateProperties.

Lemma generates_lastMilli_le g clock r :
  generates g clock r -> lastMilli g <= lastMilli (ret_gen r).
Proof.
  intros [t rest Ht | t rest -> Hs | t waiting t' rest -> Hs Hw Ht'
          | t rest Ht]; simpl; lia.
Qed.



(** X4: every generator built by [NewIDGenerator] and changed by calls of
    [Generate] only keeps both identities in [0, 31], the sequence number in
    [0, 4095] and [lastMilli] at -1 or above. *)
Theorem reachable_invariant (g : IDGenerator) :
  reachable g ->
  0 <= IDCID g <= 31 /\ 0 <= machineID g <= 31
  /\ 0 <= sequenceID g <= 4095 /\ -1 <= lastMilli g.
Proof.
  intros Hreach.
  assert (Hlast : -1 <= lastMilli g).
  { induction Hreach as [idc mach g Hnew | g clock r _ IH Hgen].
    - apply NewIDGenerator_valid in Hnew. lia.
    - apply Generate_generates in Hgen.
      pose proof (generates_lastMilli_le _ _ _ Hgen). lia. }
  destruct (reachable_valid _ Hreach) as [[Hi Hm] Hs].
  unfold valid_sequence in Hs.
  destruct max_values as (Es & Em & Ei).
  rewrite Es in Hs. rewrite Em in Hm. rewrite Ei in Hi. tauto.
Qed.

Lemma reachable_invariant_witness :
  let g := mkIDGenerator 12 0 2 1 in
  0 <= IDCID g <= 31 /\ 0 <= machineID g <= 31
  /\ 0 <= sequenceID g <= 4095 /\ -1 <= lastMilli g.
Proof.
  apply (reachable_invariant (mkIDGenerator 12 0 2 1)).
  exact (reach_generate (mkIDGenerator (-1) 0 2 1) [12] _
           (reach_new 1 2 _ eq_refl) eq_refl).
Defined.

(** X5: the first call on a new generator.  A reading below -1 gives
    [ErrClockBack]; a reading above -1 gives an identifier with sequence
    number 0 and sets [lastMilli] to the reading; the reading -1, equal to
    the initial [lastMilli], counts as a second call of that millisecond and
    gives sequence number 1.  One reading is consumed in each case. *)
Theorem Generate_first_call (idc mach : Z) (g : IDGenerator) (t : Z)
  (rest : Clock) :
  NewIDGenerator idc mach = (Some g, None) ->
  exists r,
    Generate g (t :: rest) = Some r /\ ret_clock r = rest
    /\ IDCID (ret_gen r) = idc /\ machineID (ret_gen r) = mach
    /\ (t < -1 -> ret_err r = Some ErrClockBack /\ ret_gen r = g)
    /\ (t = -1 -> ret_err r = None /\ lastMilli (ret_gen r) = -1
                  /\ sequenceID (ret_gen r) = 1)
    /\ (-1 < t -> ret_err r = None /\ lastMilli (ret_gen r) = t
                  /\ sequenceID (ret_gen r) = 0).
Proof.
  intros Hnew.
  assert (Hg : g = mkIDGenerator (-1) 0 mach idc).
  { unfold NewIDGenerator in Hnew.
    destruct ((idc >? maxIDCID) || (idc <? 0)); [discriminate |].
    destruct ((mach >? maxMachineID) || (mach <? 0)); [discriminate |].
    now injection Hnew as <-. }
  subst g. destruct (Z.lt_trichotomy t (-1)) as [Hlt | [-> | Hgt]].
  - eexists. split; [apply Generate_clock_back; exact Hlt |].
    simpl. repeat split; try lia; reflexivity.
  - eexists. split; [reflexivity |].
    simpl. repeat split; try lia; reflexivity.
  - eexists. split; [apply Generate_new_milli; exact Hgt |].
    simpl. repeat split; try lia; reflexivity.
Qed.

Lemma Generate_first_call_witness :
  exists r,
    Generate (mkIDGenerator (-1) 0 2 1) [-1; 5] = Some r /\ ret_clock r = [5]
    /\ IDCID (ret_gen r) = 1 /\ machineID (ret_gen r) = 2
    /\ (-1 < -1 -> ret_err r = Some ErrClockBack
                   /\ ret_gen r = mkIDGenerator (-1) 0 2 1)
    /\ (-1 = -1 -> ret_err r = None /\ lastMilli (ret_gen r) = -1
                   /\ sequenceID (ret_gen r) = 1)
    /\ (-1 < -1 -> ret_err r = None /\ lastMilli (ret_gen r) = -1
                   /\ sequenceID (ret_gen r) = 0).
Proof.
  exact (Generate_first_call 1 2 _ (-1) [5] eq_refl).
Defined.

(** X6: on a new generator, over a clock that never goes back and whose
    readings are -1 or later, no call of a run returns an error. *)
Theorem new_generator_never_fails (idc mach : Z) (g : IDGenerator)
  (n : nat) (clock : Clock) :
  NewIDGenerator idc mach = (Some g, None) ->
  non_regressing clock -> Forall (fun t => -1 <= t) clock ->
  Forall (fun x => snd x = None) (GenerateN n g clock).
Proof.
  intros Hnew Hsorted Hfrom. apply GenerateN_no_error; [exact Hsorted |].
  apply NewIDGenerator_valid in Hnew. destruct Hnew as (_ & -> & _).
  exact Hfrom.
Qed.

Lemma new_generator_never_fails_witness :
  Forall (fun x => snd x = None)
    (GenerateN 3 (mkIDGenerator (-1) 0 2 1) [5; 5; 7]).
Proof.
  apply (new_generator_never_fails 1 2 _ 3 [5; 5; 7] eq_refl).
  - unfold non_regressing. repeat constructor; lia.
  - repeat constructor; lia.
Defined.

End StateProperties.

(** * Further properties of the identifiers *)

Section IdentifierProperties.

(** The identifier of a successful call of a valid generator, as a sum. *)
Lemma generates_sum g clock r :
  valid g -> generates g clock r -> ret_err r = None ->
  ret_id r
  = stamp (lastMilli (ret_gen r)) * 2 ^ 22
    + IDCID g * 2 ^ 17 + machineID g * 2 ^ 12 + sequenceID (ret_gen r)
  /\ 0 <= sequenceID (ret_gen r) <= 4095.
Proof.
  intros Hv Hgen Herr.
  pose proof (generates_valid _ _ _ Hv Hgen) as Hv'.
  destruct (generates_identity _ _ _ Hgen) as [Em Ei].
  rewrite (generates_id _ _ _ Hgen Herr), (assemble_eq _ _ Hv'), Em, Ei.
  destruct Hv' as [_ Hs]. unfold valid_sequence in Hs.
  destruct max_values as (Es & _). rewrite Es in Hs. auto.
Qed.

(** X7: whatever the clock, the identifier of a successful call is a
    64-bit value whose IDC, machine and sequence fields read back exactly;
    an overflow of the shifted timestamp touches the timestamp field only,
    which reads back [now - epoch] up to a multiple of 2^42. *)
Theorem Generate_fields_any_clock
  (g : IDGenerator) (clock : Clock) (r : returned) :
  reachable g -> Generate g clock = Some r -> ret_err r = None ->
  Int64.in_range (ret_id r)
  /\ decode_idc (ret_id r) = IDCID g
  /\ decode_machine (ret_id r) = machineID g
  /\ decode_sequence (ret_id r) = sequenceID (ret_gen r)
  /\ (decode_elapsed (ret_id r) - (lastMilli (ret_gen r) - epoch))
       mod 2 ^ 42 = 0.
Proof.
  intros Hreach Hgen Herr. apply Generate_generates in Hgen.
  pose proof (reachable_valid _ Hreach) as Hv.
  pose proof (generates_valid _ _ _ Hv Hgen) as Hv'.
  destruct (generates_sum _ _ _ Hv Hgen Herr) as [Hsum Hs].
  destruct (generates_decode _ _ _ (proj1 Hv) Hgen Herr (proj2 Hv'))
    as (Et & Ei & Em & Es).
  pose proof (stamp_range (lastMilli (ret_gen r))) as Hst.
  destruct Hv as [[Hi Hm] _].
  destruct max_values as (_ & Emax & Eimax).
  rewrite Emax in Hm. rewrite Eimax in Hi.
  split.
  { unfold Int64.in_range, Int64.min_int, Int64.max_int. lia. }
  repeat (split; [assumption |]).
  rewrite Et. unfold stamp. generalize (lastMilli (ret_gen r) - epoch).
  intros x. Z.div_mod_to_equations. lia.
Qed.

Lemma Generate_fields_any_clock_witness :
  let g := mkIDGenerator (-1) 0 2 1 in
  let r := mint g (epoch + 2 ^ 42 + 7) 0 [] in
  Int64.in_range (ret_id r)
  /\ decode_idc (ret_id r) = IDCID g
  /\ decode_machine (ret_id r) = machineID g
  /\ decode_sequence (ret_id r) = sequenceID (ret_gen r)
  /\ (decode_elapsed (ret_id r) - (lastMilli (ret_gen r) - epoch))
       mod 2 ^ 42 = 0.
Proof.
  apply (Generate_fields_any_clock (mkIDGenerator (-1) 0 2 1)
           [epoch + 2 ^ 42 + 7]).
  - exact (reach_new 1 2 _ eq_refl).
  - reflexivity.
  - reflexivity.
Defined.

(** X8: two generators that differ in the IDC number or in the machine
    number never return the same identifier, whatever their clocks. *)
Theorem distinct_identities_distinct_ids
  (g1 g2 : IDGenerator) (clock1 clock2 : Clock) (r1 r2 : returned) :
  reachable g1 -> reachable g2 ->
  IDCID g1 <> IDCID g2 \/ machineID g1 <> machineID g2 ->
  Generate g1 clock1 = Some r1 -> ret_err r1 = None ->
  Generate g2 clock2 = Some r2 -> ret_err r2 = None ->
  ret_id r1 <> ret_id r2.
Proof.
  intros Hreach1 Hreach2 Hdiff Hgen1 Herr1 Hgen2 Herr2 Heq.
  apply Generate_generates in Hgen1. apply Generate_generates in Hgen2.
  pose proof (reachable_valid _ Hreach1) as Hv1.
  pose proof (reachable_valid _ Hreach2) as Hv2.
  destruct (generates_decode _ _ _ (proj1 Hv1) Hgen1 Herr1
              (proj2 (generates_valid _ _ _ Hv1 Hgen1)))
    as (_ & Ei1 & Em1 & _).
  destruct (generates_decode _ _ _ (proj1 Hv2) Hgen2 Herr2
              (proj2 (generates_valid _ _ _ Hv2 Hgen2)))
    as (_ & Ei2 & Em2 & _).
  rewrite Heq in Ei1, Em1. destruct Hdiff as [Hd | Hd]; congruence.
Qed.

Lemma distinct_identities_distinct_ids_witness :
  reachable (mkIDGenerator (-1) 0 2 1)
  /\ ret_id (mint (mkIDGenerator (-1) 0 2 1) (epoch + 5000) 0 [])
     <> ret_id (mint (mkIDGenerator (-1) 0 3 1) (epoch + 5000) 0 []).
Proof.
  split; [exact (reach_new 1 2 _ eq_refl) |].
  apply (distinct_identities_distinct_ids
           (mkIDGenerator (-1) 0 2 1) (mkIDGenerator (-1) 0 3 1)
           [epoch + 5000] [epoch + 5000]).
  - exact (reach_new 1 2 _ eq_refl).
  - exact (reach_new 1 3 _ eq_refl).
  - right. simpl. lia.
  - reflexivity.
  - reflexivity.
  - reflexivity.
  - reflexivity.
Defined.

(** X9: identifiers sort by time across generators: of two identifiers
    minted inside the window by any two generators, the one minted at the
    later millisecond is the larger. *)
Theorem later_millisecond_larger_id
  (g1 g2 : IDGenerator) (clock1 clock2 : Clock) (r1 r2 : returned) :
  reachable g1 -> reachable g2 ->
  Generate g1 clock1 = Some r1 -> ret_err r1 = None ->
  Generate g2 clock2 = Some r2 -> ret_err r2 = None ->
  in_window (lastMilli (ret_gen r1)) -> in_window (lastMilli (ret_gen r2)) ->
  lastMilli (ret_gen r1) < lastMilli (ret_gen r2) ->
  ret_id r1 < ret_id r2.
Proof.
  intros Hreach1 Hreach2 Hgen1 Herr1 Hgen2 Herr2 Hw1 Hw2 Hlt.
  apply Generate_generates in Hgen1. apply Generate_generates in Hgen2.
  pose proof (reachable_valid _ Hreach1) as Hv1.
  pose proof (reachable_valid _ Hreach2) as Hv2.
  destruct (generates_sum _ _ _ Hv1 Hgen1 Herr1) as [-> Hs1].
  destruct (generates_sum _ _ _ Hv2 Hgen2 Herr2) as [-> Hs2].
  rewrite !stamp_in_window by assumption.
  destruct Hv1 as [[Hi1 Hm1] _]. destruct Hv2 as [[Hi2 Hm2] _].
  destruct max_values as (_ & Emax & Eimax).
  rewrite Emax in Hm1, Hm2. rewrite Eimax in Hi1, Hi2. lia.
Qed.

Lemma later_millisecond_larger_id_witness :
  ret_id (mint (mkIDGenerator (-1) 0 31 31) (epoch + 5000) 0 [])
  < ret_id (mint (mkIDGenerator (-1) 0 0 0) (epoch + 5001) 0 []).
Proof.
  apply (later_millisecond_larger_id
           (mkIDGenerator (-1) 0 31 31) (mkIDGenerator (-1) 0 0 0)
           [epoch + 5000] [epoch + 5001]).
  - exact (reach_new 31 31 _ eq_refl).
  - exact (reach_new 0 0 _ eq_refl).
  - reflexivity.
  - reflexivity.
  - reflexivity.
  - reflexivity.
  - unfold in_window, epoch. simpl. lia.
  - unfold in_window, epoch. simpl. lia.
  - simpl. lia.
Defined.

End IdentifierProperties.

(** * Further properties of runs *)

Section RunProperties.

Lemma StronglySorted_lt_NoDup l : StronglySorted Z.lt l -> NoDup l.
Proof.
  induction 1 as [| x l _ IH Hall]; constructor; [| exact IH].
  intros Hin. rewrite Forall_forall in Hall. specialize (Hall x Hin). lia.
Qed.

Lemma StronglySorted_filter (f : Z -> bool) l :
  StronglySorted Z.lt l -> StronglySorted Z.lt (filter f l).
Proof.
  induction 1 as [| x l _ IH Hall]; simpl; [constructor |].
  destruct (f x); [| exact IH]. constructor; [exact IH |].
  rewrite Forall_forall in *. intros y Hy.
  apply filter_In in Hy. now apply Hall.
Qed.

(** An increasing list of integers inside an interval is no longer than
    the interval. *)
Lemma increasing_length_le l :
  StronglySorted Z.lt l ->
  forall a n, Forall (fun x => a <= x < a + n) l ->
              Z.of_nat (length l) <= Z.max 0 n.
Proof.
  induction 1 as [| x l _ IH Hall]; intros a n Hin; simpl length; [lia |].
  inversion Hin as [| ? ? Hx Hrest]; subst.
  assert (Hl : Forall (fun y => x + 1 <= y < x + 1 + (a + n - x - 1)) l).
  { rewrite Forall_forall in *. intros y Hy.
    specialize (Hall y Hy). specialize (Hrest y Hy). simpl in Hrest. lia. }
  specialize (IH _ _ Hl). lia.
Qed.

(** In a run over readings of the window every identifier returned is the
    sum of a millisecond of the window, the identities of the generator
    and a sequence number. *)
Lemma GenerateN_ids_sum n :
  forall g clock,
    valid g -> Forall in_window clock ->
    Forall (fun id => exists t s,
                in_window t /\ 0 <= s <= 4095
                /\ id = (t - epoch) * 2 ^ 22
                        + IDCID g * 2 ^ 17 + machineID g * 2 ^ 12 + s)
           (successful_ids (GenerateN n g clock)).
Proof.
  induction n as [| n IH]; intros g clock Hv Hwin; simpl; [constructor |].
  destruct (Generate g clock) as [r |] eqn:Hgen; [| constructor].
  apply Generate_generates in Hgen.
  destruct (generates_suffix _ _ _ Hgen) as [used Hused].
  assert (Hwin' : Forall in_window (ret_clock r)).
  { rewrite Hused in Hwin. apply Forall_app in Hwin. tauto. }
  pose proof (generates_valid _ _ _ Hv Hgen) as Hv'.
  destruct (generates_identity _ _ _ Hgen) as [Em Ei].
  specialize (IH _ _ Hv' Hwin'). rewrite Em, Ei in IH.
  destruct (ret_err r) as [e |] eqn:Herr.
  - rewrite successful_ids_cons_err. exact IH.
  - rewrite successful_ids_cons_ok. constructor; [| exact IH].
    destruct (generates_sum _ _ _ Hv Hgen Herr) as [Hsum Hs].
    assert (Hw : in_window (lastMilli (ret_gen r))).
    { rewrite Forall_forall in Hwin. apply Hwin.
      exact (generates_reading _ _ _ Hgen Herr). }
    exists (lastMilli (ret_gen r)), (sequenceID (ret_gen r)).
    rewrite stamp_in_window in Hsum by assumption. auto.
Qed.

(** X10: in a run on one generator over readings [t] with
    [-2^41 <= t - epoch < 2^41], in any order, no identifier is returned
    twice. *)
Theorem GenerateN_ids_NoDup (n : nat) (g : IDGenerator) (clock : Clock) :
  reachable g -> Forall in_window clock ->
  NoDup (successful_ids (GenerateN n g clock)).
Proof.
  intros Hreach Hwin. apply StronglySorted_lt_NoDup.
  apply GenerateN_increasing; [now apply reachable_valid | exact Hwin].
Qed.

Lemma GenerateN_ids_NoDup_witness :
  NoDup (successful_ids
           (GenerateN 4 (mkIDGenerator (-1) 0 2 1)
              [epoch + 2; epoch + 1; epoch + 2; epoch + 3])).
Proof.
  apply GenerateN_ids_NoDup.
  - exact (reach_new 1 2 _ eq_refl).
  - unfold in_window, epoch. repeat constructor; lia.
Defined.

(** X11: in such a run at most 4096 identifiers carry the same
    millisecond. *)
Theorem at_most_4096_per_millisecond
  (n : nat) (g : IDGenerator) (clock : Clock) (t : Z) :
  reachable g -> Forall in_window clock ->
  (length (filter (fun id => (decode_milli id =? t)%Z)
             (successful_ids (GenerateN n g clock))) <= 4096)%nat.
Proof.
  intros Hreach Hwin. pose proof (reachable_valid _ Hreach) as Hv.
  destruct (GenerateN_increasing n g clock Hv Hwin) as [_ Hsorted].
  pose proof (GenerateN_ids_sum n g clock Hv Hwin) as Hsum.
  set (ids := successful_ids (GenerateN n g clock)) in *.
  set (base := (t - epoch) * 2 ^ 22
               + IDCID g * 2 ^ 17 + machineID g * 2 ^ 12).
  destruct Hv as [[Hi Hm] _].
  destruct max_values as (_ & Emax & Eimax).
  rewrite Emax in Hm. rewrite Eimax in Hi.
  assert (Hin : Forall (fun x => base <= x < base + 4096)
                  (filter (fun id => decode_milli id =? t) ids)).
  { rewrite Forall_forall in *. intros x Hx. apply filter_In in Hx.
    destruct Hx as [Hx Ht]. apply Z.eqb_eq in Ht.
    destruct (Hsum x Hx) as (t' & s & Hw & Hs & ->).
    destruct (decode_sum (t' - epoch) _ _ s Hi Hm Hs) as (Et & _).
    unfold decode_milli in Ht. rewrite Et in Ht.
    assert (t' = t) by lia. subst t'. unfold base. lia. }
  pose proof (increasing_length_le _ (StronglySorted_filter _ _ Hsorted)
                _ _ Hin) as Hlen.
  lia.
Qed.

Lemma at_most_4096_per_millisecond_witness :
  (length (filter (fun id => (decode_milli id =? epoch + 2)%Z)
             (successful_ids
                (GenerateN 4 (mkIDGenerator (-1) 0 2 1)
                   [epoch + 2; epoch + 2; epoch + 2; epoch + 3]%Z)))
   <= 4096)%nat.
Proof.
  apply at_most_4096_per_millisecond.
  - exact (reach_new 1 2 _ eq_refl).
  - unfold in_window, epoch. repeat constructor; lia.
Defined.

End RunProperties.

Section Consecutive.

(** X12: whatever the millisecond, after a successful call that leaves a
    sequence number below 4095, the call that reads the same millisecond
    returns the next integer: the two identifiers differ by exactly 1. *)
Theorem Generate_same_milli_next_integer
  (g : IDGenerator) (clock : Clock) (r1 : returned) (rest : Clock) :
  reachable g ->
  Generate g clock = Some r1 -> ret_err r1 = None ->
  sequenceID (ret_gen r1) < maxSequenceID ->
  exists r2,
    Generate (ret_gen r1) (lastMilli (ret_gen r1) :: rest) = Some r2
    /\ ret_err r2 = None /\ ret_clock r2 = rest
    /\ ret_id r2 = ret_id r1 + 1.
Proof.
  intros Hreach Hgen1 Herr1 Hlt.
  pose proof (reachable_valid _ Hreach) as Hv.
  apply Generate_generates in Hgen1.
  pose proof (generates_valid _ _ _ Hv Hgen1) as Hv1.
  pose proof Hv1 as [_ Hseq1]. unfold valid_sequence in Hseq1.
  assert (Hadd : Int64.add (sequenceID (ret_gen r1)) 1
                 = sequenceID (ret_gen r1) + 1)
    by now apply add_one_small.
  set (r2 := mint (ret_gen r1) (lastMilli (ret_gen r1))
                  (Int64.add (sequenceID (ret_gen r1)) 1) rest).
  assert (Hgen2 : generates (ret_gen r1) (lastMilli (ret_gen r1) :: rest) r2)
    by (apply gen_same_milli; [reflexivity | lia]).
  destruct (generates_identity _ _ _ Hgen1) as [Em Ei].
  destruct (generates_sum _ _ _ Hv Hgen1 Herr1) as [Hsum1 _].
  destruct (generates_sum _ _ _ Hv1 Hgen2 eq_refl) as [Hsum2 _].
  exists r2. split; [now apply generates_Generate |].
  split; [reflexivity |]. split; [reflexivity |].
  rewrite Hsum2, Hsum1, Em, Ei. simpl. lia.
Qed.

Lemma Generate_same_milli_next_integer_witness :
  let r1 := mint (mkIDGenerator (-1) 0 2 1) (epoch + 2 ^ 42 + 7) 0 [] in
  exists r2,
    Generate (ret_gen r1) (lastMilli (ret_gen r1) :: [5]) = Some r2
    /\ ret_err r2 = None /\ ret_clock r2 = [5]
    /\ ret_id r2 = ret_id r1 + 1.
Proof.
  apply (Generate_same_milli_next_integer (mkIDGenerator (-1) 0 2 1)
           [epoch + 2 ^ 42 + 7] _ [5]).
  - exact (reach_new 1 2 _ eq_refl).
  - reflexivity.
  - reflexivity.
  - reflexivity.
Defined.

End Consecutive.
